(** * CityInsightsBot: a shallow embedding of src/src/index.ts

    The module is a thin client layer: [constructMessages] builds the two
    prompt messages, [getChatResponse] sends them through the Ollama client,
    checks the reply with [isValidResponse] and decodes it with
    [safeJsonParse] (a wrapper around [JSON.parse]).  Failures are thrown as
    [ChatResponseError]s.

    Modelling choices:
    - a JavaScript string is a list of UTF-16 code units, [list N];
    - a JSON value is the inductive [jvalue]; an object is the association
      list of its own properties in insertion order (a repeated key
      overwrites the value in place, as [JSON.parse] does); a number is kept
      as its decimal lexeme, no claim depends on its floating-point value;
    - thrown exceptions are the [Err] branch of a small result type; the
      [console.log] / [console.error] calls are debug output with no effect
      on the result and are not modelled;
    - the Ollama client call [ollama.chat] is an external collaborator and
      is a parameter of [getChatResponse]: it either resolves with a
      [ChatResponse] or rejects with some thrown value. *)

From Stdlib Require Import List String Ascii Bool NArith Lia.
Import ListNotations.
Open Scope N_scope.
Open Scope bool_scope.
Set Warnings "-register-all".


(** ** JavaScript strings *)

Definition jstr := list N.

(** ASCII literal as a JS string (code unit = character code). *)
Definition js (s : string) : jstr :=
  map (fun a => N_of_ascii a) (list_ascii_of_string s).

Definition DQ : N := 34.   (* double quote *)
Definition BSL : N := 92.  (* backslash *)

(** [dq s] is the ASCII text [s] surrounded by double quotes. *)
Definition dq (s : string) : jstr := [DQ] ++ js s ++ [DQ].

Fixpoint jstr_eqb (a b : jstr) : bool :=
  match a, b with
  | [], [] => true
  | x :: a', y :: b' => N.eqb x y && jstr_eqb a' b'
  | _, _ => false
  end.

Fixpoint is_prefix (p s : jstr) : bool :=
  match p, s with
  | [], _ => true
  | x :: p', y :: s' => N.eqb x y && is_prefix p' s'
  | _ :: _, [] => false
  end.

(** [String.prototype.includes]. *)
Fixpoint includes (s p : jstr) : bool :=
  is_prefix p s || match s with [] => false | _ :: s' => includes s' p end.

(** ** JSON values *)

Inductive jvalue : Type :=
| JNull
| JBool (b : bool)
| JNumber (lexeme : jstr)
| JString (s : jstr)
| JArray (xs : list jvalue)
| JObject (props : list (jstr * jvalue)).

(** Property assignment [o[k] = v] on a fresh, ordinary object. *)
Fixpoint obj_set (props : list (jstr * jvalue)) (k : jstr) (v : jvalue)
  : list (jstr * jvalue) :=
  match props with
  | [] => [(k, v)]
  | (k', v') :: rest =>
      if jstr_eqb k k' then (k', v) :: rest else (k', v') :: obj_set rest k v
  end.

(** ** [JSON.parse] (ECMA-262 JSON grammar, ECMA-404) *)

Definition is_ws (c : N) : bool :=
  N.eqb c 32 || N.eqb c 9 || N.eqb c 10 || N.eqb c 13.

Fixpoint skip_ws (s : jstr) : jstr :=
  match s with
  | c :: r => if is_ws c then skip_ws r else s
  | [] => []
  end.

Definition is_digit (c : N) : bool := (48 <=? c) && (c <=? 57).

Definition hex_val (c : N) : option N :=
  if is_digit c then Some (c - 48)
  else if (65 <=? c) && (c <=? 70) then Some (c - 55)
  else if (97 <=? c) && (c <=? 102) then Some (c - 87)
  else None.

(** Four hexadecimal digits of a [\uXXXX] escape. *)
Definition hex4 (s : jstr) : option (N * jstr) :=
  match s with
  | a :: b :: c :: d :: r =>
      match hex_val a, hex_val b, hex_val c, hex_val d with
      | Some a', Some b', Some c', Some d' =>
          Some (((a' * 16 + b') * 16 + c') * 16 + d', r)
      | _, _, _, _ => None
      end
  | _ => None
  end.

(** The character denoted by a one-letter escape [\c]. *)
Definition simple_escape (c : N) : option N :=
  if N.eqb c DQ then Some DQ
  else if N.eqb c BSL then Some BSL
  else if N.eqb c 47 then Some 47        (* \/ *)
  else if N.eqb c 98 then Some 8         (* \b *)
  else if N.eqb c 102 then Some 12       (* \f *)
  else if N.eqb c 110 then Some 10       (* \n *)
  else if N.eqb c 114 then Some 13       (* \r *)
  else if N.eqb c 116 then Some 9        (* \t *)
  else None.

(** Body of a string literal, after its opening quote: returns the decoded
    string and the input after the closing quote.  Structural on [s]: each
    call consumes at least one code unit. *)
Fixpoint lex_string (s : jstr) : option (jstr * jstr) :=
  match s with
  | [] => None
  | c :: r =>
      if N.eqb c DQ then Some ([], r)
      else if N.eqb c BSL then
        match r with
        | [] => None
        | e :: r' =>
            if N.eqb e 117 then            (* \uXXXX *)
              match r' with
              | a :: b :: c4 :: d :: r'' =>
                  match hex4 [a; b; c4; d] with
                  | Some (u, _) =>
                      match lex_string r'' with
                      | Some (t, rest) => Some (u :: t, rest)
                      | None => None
                      end
                  | None => None
                  end
              | _ => None
              end
            else
              match simple_escape e with
              | Some u =>
                  match lex_string r' with
                  | Some (t, rest) => Some (u :: t, rest)
                  | None => None
                  end
              | None => None
              end
        end
      else if c <? 32 then None            (* unescaped control character *)
      else
        match lex_string r with
        | Some (t, rest) => Some (c :: t, rest)
        | None => None
        end
  end.

(** Maximal run of decimal digits. *)
Fixpoint lex_digits (s : jstr) : jstr * jstr :=
  match s with
  | c :: r =>
      if is_digit c then let (d, rest) := lex_digits r in (c :: d, rest)
      else ([], s)
  | [] => ([], [])
  end.

(** [s] starts with code unit [c]: the input after it. *)
Definition expect (c : N) (s : jstr) : option jstr :=
  match s with
  | x :: r => if N.eqb x c then Some r else None
  | [] => None
  end.

(** A run of one or more digits. *)
Definition lex_digits1 (s : jstr) : option (jstr * jstr) :=
  match lex_digits s with
  | ([], _) => None
  | (d, rest) => Some (d, rest)
  end.

(** Number: [-? (0 | [1-9][0-9]* ) (. [0-9]+)? ([eE] [+-]? [0-9]+)?],
    returned as its lexeme. *)
Definition lex_number (s : jstr) : option (jstr * jstr) :=
  let '(sign, s1) :=
    match expect 45 s with Some r => ([45], r) | None => ([], s) end in
  let int_part :=
    match s1 with
    | c :: r =>
        if N.eqb c 48 then Some ([c], r)
        else if is_digit c then let (d, rest) := lex_digits r in Some (c :: d, rest)
        else None
    | [] => None
    end in
  match int_part with
  | None => None
  | Some (ip, s2) =>
      let frac :=
        match expect 46 s2 with
        | Some r =>
            match lex_digits1 r with
            | Some (d, rest) => Some (46 :: d, rest)
            | None => None
            end
        | None => Some ([], s2)
        end in
      match frac with
      | None => None
      | Some (fp, s3) =>
          let exp :=
            match s3 with
            | e :: r =>
                if N.eqb e 101 || N.eqb e 69 then
                  let '(sg, r1) :=
                    match r with
                    | x :: r' => if N.eqb x 43 || N.eqb x 45 then ([x], r') else ([], r)
                    | [] => ([], r)
                    end in
                  match lex_digits1 r1 with
                  | Some (d, rest) => Some (e :: sg ++ d, rest)
                  | None => None
                  end
                else Some ([], s3)
            | [] => Some ([], s3)
            end in
          match exp with
          | None => None
          | Some (xp, s4) => Some (sign ++ ip ++ fp ++ xp, s4)
          end
      end
  end.

(** Recursive descent over a JSON text.  [fuel] bounds the nesting of the
    three mutually recursive parsers; every call consumes at least one code
    unit before the next one, so [length s + 1] units of fuel are enough
    for a text [s] (see [json_parse]).  Each parser skips the whitespace in
    front of its token and returns the input right after the token. *)
Fixpoint parse_value (fuel : nat) (s : jstr) : option (jvalue * jstr) :=
  match fuel with
  | O => None
  | S f =>
      match skip_ws s with
      | [] => None
      | c :: r =>
          if N.eqb c 123 then                              (* { *)
            match expect 125 (skip_ws r) with
            | Some r' => Some (JObject [], r')
            | None => parse_members f [] r
            end
          else if N.eqb c 91 then                          (* [ *)
            match expect 93 (skip_ws r) with
            | Some r' => Some (JArray [], r')
            | None => parse_elements f [] r
            end
          else if N.eqb c DQ then
            match lex_string r with
            | Some (t, rest) => Some (JString t, rest)
            | None => None
            end
          else if is_prefix (js "true") (c :: r) then Some (JBool true, skipn 3 r)
          else if is_prefix (js "false") (c :: r) then Some (JBool false, skipn 4 r)
          else if is_prefix (js "null") (c :: r) then Some (JNull, skipn 3 r)
          else
            match lex_number (c :: r) with
            | Some (lx, rest) => Some (JNumber lx, rest)
            | None => None
            end
      end
  end
(** Members of a non-empty object, [acc] being the properties read so far. *)
with parse_members (fuel : nat) (acc : list (jstr * jvalue)) (s : jstr)
  : option (jvalue * jstr) :=
  match fuel with
  | O => None
  | S f =>
      match expect DQ (skip_ws s) with
      | None => None
      | Some r =>
          match lex_string r with
          | None => None
          | Some (k, r1) =>
              match expect 58 (skip_ws r1) with                 (* : *)
              | None => None
              | Some r2 =>
                  match parse_value f r2 with
                  | None => None
                  | Some (v, r3) =>
                      let acc' := obj_set acc k v in
                      match skip_ws r3 with
                      | x :: r4 =>
                          if N.eqb x 44 then parse_members f acc' r4    (* , *)
                          else if N.eqb x 125 then Some (JObject acc', r4)  (* } *)
                          else None
                      | [] => None
                      end
                  end
              end
          end
      end
  end
(** Elements of a non-empty array, [acc] being the elements read so far. *)
with parse_elements (fuel : nat) (acc : list jvalue) (s : jstr)
  : option (jvalue * jstr) :=
  match fuel with
  | O => None
  | S f =>
      match parse_value f s with
      | None => None
      | Some (v, r) =>
          match skip_ws r with
          | x :: r' =>
              if N.eqb x 44 then parse_elements f (acc ++ [v]) r'       (* , *)
              else if N.eqb x 93 then Some (JArray (acc ++ [v]), r')   (* ] *)
              else None
          | [] => None
          end
      end
  end.

(** [JSON.parse(text)]: [None] is the [SyntaxError] it throws.  The whole
    text must be one value, surrounded by whitespace only. *)
Definition json_parse (text : jstr) : option jvalue :=
  match parse_value (S (List.length text)) text with
  | Some (v, rest) =>
      match skip_ws rest with
      | [] => Some v
      | _ :: _ => None
      end
  | None => None
  end.

Example json_parse_ex1 :
  json_parse (js "{" ++ dq "a" ++ js ": [1, -2.5e3, true, null], " ++ dq "a" ++ js ":" ++ dq "x" ++ js " } ")
  = Some (JObject [(js "a", JString (js "x"))]).
Proof. reflexivity. Qed.

Example json_parse_ex2 : json_parse (js "42") = Some (JNumber (js "42")).
Proof. reflexivity. Qed.

Example json_parse_ex3 : json_parse (js "{city: London}") = None.
Proof. reflexivity. Qed.

Example json_parse_ex4 : json_parse (js "01") = None /\ json_parse (js "[1,]") = None
  /\ json_parse (js "[[],{}, [0.5]]") = Some (JArray [JArray []; JObject []; JArray [JNumber (js "0.5")]]).
Proof. repeat split; reflexivity. Qed.

(** ** [JSON.stringify(value, null, 2)] *)

Definition LF : N := 10.

Fixpoint join (sep : jstr) (xs : list jstr) : jstr :=
  match xs with
  | [] => []
  | [x] => x
  | x :: rest => x ++ sep ++ join sep rest
  end.

Definition hex_digit (d : N) : N := if d <? 10 then 48 + d else 87 + d.

(** [UnicodeEscape(c)]: [\u] and four lowercase hexadecimal digits. *)
Definition unicode_escape (c : N) : jstr :=
  [BSL; 117; hex_digit (c / 4096); hex_digit ((c / 256) mod 16);
   hex_digit ((c / 16) mod 16); hex_digit (c mod 16)].

Definition is_leading_surrogate (c : N) : bool := (55296 <=? c) && (c <=? 56319).
Definition is_trailing_surrogate (c : N) : bool := (56320 <=? c) && (c <=? 57343).

(** The text of one code point that is not a surrogate. *)
Definition quote_unit (c : N) : jstr :=
  if N.eqb c DQ then [BSL; DQ]
  else if N.eqb c BSL then [BSL; BSL]
  else if N.eqb c 8 then [BSL; 98]
  else if N.eqb c 12 then [BSL; 102]
  else if N.eqb c 10 then [BSL; 110]
  else if N.eqb c 13 then [BSL; 114]
  else if N.eqb c 9 then [BSL; 116]
  else if c <? 32 then unicode_escape c
  else [c].

(** QuoteJSONString, over the code points of the string: a surrogate pair
    is copied as it is, a lone surrogate is written as [UnicodeEscape]. *)
Fixpoint quote_body (s : jstr) : jstr :=
  match s with
  | [] => []
  | c :: r =>
      if is_leading_surrogate c then
        match r with
        | d :: r' =>
            if is_trailing_surrogate d then [c; d] ++ quote_body r'
            else unicode_escape c ++ quote_body r
        | [] => unicode_escape c
        end
      else if is_trailing_surrogate c then unicode_escape c ++ quote_body r
      else quote_unit c ++ quote_body r
  end.

Definition quote (s : jstr) : jstr := [DQ] ++ quote_body s ++ [DQ].

Definition gap : jstr := js "  ".

(** SerializeJSONProperty with gap [gap], at indentation [indent]. *)
Fixpoint stringify_at (indent : jstr) (v : jvalue) : jstr :=
  match v with
  | JNull => js "null"
  | JBool true => js "true"
  | JBool false => js "false"
  | JNumber lx => lx
  | JString s => quote s
  | JArray [] => js "[]"
  | JArray xs =>
      let stepback := indent in
      let ind := indent ++ gap in
      js "[" ++ [LF] ++ ind
        ++ join ([44; LF] ++ ind) (map (stringify_at ind) xs)
        ++ [LF] ++ stepback ++ js "]"
  | JObject [] => js "{}"
  | JObject props =>
      let stepback := indent in
      let ind := indent ++ gap in
      js "{" ++ [LF] ++ ind
        ++ join ([44; LF] ++ ind)
             ((fix members (ps : list (jstr * jvalue)) : list jstr :=
                 match ps with
                 | [] => []
                 | (k, x) :: rest =>
                     (quote k ++ js ": " ++ stringify_at ind x) :: members rest
                 end) props)
        ++ [LF] ++ stepback ++ js "}"
  end.

Definition stringify (v : jvalue) : jstr := stringify_at [] v.

Example stringify_ex :
  stringify (JObject [(js "a", JArray [JNull; JBool true]); (js "b", JObject [])])
  = js "{" ++ [LF] ++ js "  " ++ dq "a" ++ js ": [" ++ [LF] ++ js "    null," ++ [LF]
      ++ js "    true" ++ [LF] ++ js "  ]," ++ [LF] ++ js "  " ++ dq "b" ++ js ": {}"
      ++ [LF] ++ js "}".
Proof. reflexivity. Qed.

(** A lone surrogate is escaped, a surrogate pair is kept. *)
Example stringify_surrogates :
  stringify (JString [55296; 65; 55357; 56832; 57343])
  = [DQ] ++ [BSL] ++ js "ud800A" ++ [55357; 56832] ++ [BSL] ++ js "udfff" ++ [DQ].
Proof. reflexivity. Qed.

(** ** Prompt construction *)

(** [interface Message { role: string; content: string }] *)
Record Message := mkMessage { role : jstr; content : jstr }.

Definition system_prompt_head : jstr :=
  js "You are an assistant that provides detailed information about cities. When given a city name, describe the city including its major industry and one fun activity to do there. Ensure the response is strictly in JSON format adhering to the following schema:"
  ++ [LF] ++ js "      " ++ [LF].

Definition system_prompt_tail : jstr :=
  [LF] ++ js "      " ++ [LF]
  ++ js "Do not include any additional text or explanations outside of the JSON object.".

(** [constructMessages(city, schema)] *)
Definition constructMessages (city : jstr) (schema : jvalue) : list Message :=
  [ {| role := js "system";
       content := system_prompt_head ++ stringify schema ++ system_prompt_tail |};
    {| role := js "user"; content := city |} ].

(** The [schema] constant of [getChatResponse]. *)
Definition field_schema (description : string) : jvalue :=
  JObject [(js "type", JString (js "string"));
           (js "description", JString (js description))].

Definition schema : jvalue :=
  JObject
    [(js "city", field_schema "The city where the user is located.");
     (js "industry",
       field_schema "The most popular industry in the city. What the city is known for.");
     (js "fun", field_schema "One thing that is fun to do there on a day off.")].

(** ** Responses of the Ollama client *)

(** The [message] of a [ChatResponse].  Its [content] is read at run time
    through [response.message?.content], so a missing content is modelled
    ([None] is [undefined]). *)
Record ResponseMessage := mkResponseMessage {
  msg_role : jstr;
  msg_content : option jstr
}.

(** [ChatResponse]: the fields this program reads; [message] may be absent. *)
Record ChatResponse := mkChatResponse {
  model : jstr;
  message : option ResponseMessage
}.

(** The argument of [ollama.chat({ model, messages })]. *)
Record ChatRequest := mkChatRequest {
  req_model : jstr;
  req_messages : list Message
}.

(** ** Thrown values *)

Inductive thrown : Type :=
(** the [SyntaxError] thrown by [JSON.parse] *)
| JsonSyntaxError
(** whatever [ollama.chat] rejects with (network error, HTTP error, ...) *)
| TransportError (payload : jstr)
(** an instance of [class ChatResponseError extends Error] *)
| ChatResponseErrorObj (name : jstr) (msg : jstr) (cause : option error_cause)
(** the values stored in the [cause] property of a [ChatResponseError] *)
with error_cause : Type :=
| CauseThrown (e : thrown)                           (* a caught error *)
| CauseParse (cause : thrown) (rawResponse : jstr)   (* { cause, rawResponse } *)
| CauseResponse (r : ChatResponse).                  (* the raw response *)

(** [new ChatResponseError(message, cause)]: the constructor sets
    [this.name = 'ChatResponseError'] whatever the message. *)
Definition ChatResponseError (msg : jstr) (cause : option error_cause) : thrown :=
  ChatResponseErrorObj (js "ChatResponseError") msg cause.

(** The [name] property of a thrown [Error]. *)
Definition error_name (e : thrown) : option jstr :=
  match e with
  | ChatResponseErrorObj n _ _ => Some n
  | JsonSyntaxError => Some (js "SyntaxError")
  | TransportError _ => None
  end.

(** Completion of a computation: a value, or a thrown exception (a rejected
    promise for the [async] function). *)
Inductive result (A : Type) : Type :=
| Ok (a : A)
| Throw (e : thrown).
Arguments Ok {A} a.
Arguments Throw {A} e.

(** ** Validation and parsing *)

(** [safeJsonParse(jsonString)]; the value is returned as is
    ([as ChatSchema] is a type assertion only). *)
Definition safeJsonParse (jsonString : jstr) : result jvalue :=
  match json_parse jsonString with
  | Some v => Ok v
  | None =>
      Throw (ChatResponseError (js "Failed to parse JSON")
               (Some (CauseParse JsonSyntaxError jsonString)))
  end.

(** [response.message?.content] *)
Definition response_content (response : ChatResponse) : option jstr :=
  match message response with
  | Some m => msg_content m
  | None => None
  end.

(** [!!s] for a string: [false] on the empty string only. *)
Definition truthy_string (s : jstr) : bool :=
  match s with [] => false | _ :: _ => true end.

(** [isValidResponse(response)]: [!!response.message?.content] *)
Definition isValidResponse (response : ChatResponse) : bool :=
  match response_content response with
  | Some c => truthy_string c
  | None => false
  end.

(** Lines 107-114 of [getChatResponse], once the response has arrived: the
    type guard, then [safeJsonParse(response.message.content)], else the
    ['Invalid response structure'] error with the response as cause. *)
Definition validateAndParse (response : ChatResponse) : result jvalue :=
  if isValidResponse response then
    safeJsonParse (match response_content response with
                   | Some c => c
                   | None => []
                   end)
  else
    Throw (ChatResponseError (js "Invalid response structure")
             (Some (CauseResponse response))).

(** ** [getChatResponse] *)

Definition failure_prefix : jstr := js "Failed to get chat response for city: ".

(** [getChatResponse(city)], with the client call [ollama.chat] (to the
    server at http://127.0.0.1:11434) as the parameter [chat].  Everything
    thrown in the [try] block, by [chat] or by the validation and parsing,
    is caught and rethrown wrapped. *)
Definition getChatResponse (chat : ChatRequest -> result ChatResponse)
    (city : jstr) : result jvalue :=
  let messages := constructMessages city schema in
  let attempt :=
    match chat {| req_model := js "gemma:2b"; req_messages := messages |} with
    | Ok response => validateAndParse response
    | Throw e => Throw e
    end in
  match attempt with
  | Ok parsed => Ok parsed
  | Throw error =>
      Throw (ChatResponseError (failure_prefix ++ city) (Some (CauseThrown error)))
  end.

(** ** The payload the system prompt asks for *)

(** A code unit that stands for itself inside a JSON string literal. *)
Definition json_plain_char (c : N) : bool :=
  negb (N.eqb c DQ) && negb (N.eqb c BSL) && (32 <=? c).

(** A string that can be written between double quotes without escapes. *)
Definition json_plain (s : jstr) : bool := forallb json_plain_char s.

(** The text [{"city":"X","industry":"Y","fun":"Z"}]. *)
Definition city_info_text (X Y Z : jstr) : jstr :=
  js "{" ++ dq "city" ++ js ":" ++ [DQ] ++ X ++ [DQ] ++ js ","
  ++ dq "industry" ++ js ":" ++ [DQ] ++ Y ++ [DQ] ++ js ","
  ++ dq "fun" ++ js ":" ++ [DQ] ++ Z ++ [DQ] ++ js "}".

(** The record [{city: X, industry: Y, fun: Z}]. *)
Definition city_info (X Y Z : jstr) : jvalue :=
  JObject [(js "city", JString X); (js "industry", JString Y); (js "fun", JString Z)].

(** ** Lemmas about the parser *)

Lemma lex_string_plain (s rest : jstr) :
  json_plain s = true -> lex_string (s ++ DQ :: rest) = Some (s, rest).
Proof.
  induction s as [|c s IH]; intros H; [reflexivity|].
  simpl in H. apply andb_prop in H as [Hc Hs].
  unfold json_plain_char in Hc.
  apply andb_prop in Hc as [Hc H32]. apply andb_prop in Hc as [Hdq Hbsl].
  apply negb_true_iff in Hdq, Hbsl.
  simpl. rewrite Hdq, Hbsl.
  replace (c <? 32) with false by (symmetry; apply N.ltb_ge, N.leb_le; exact H32).
  rewrite (IH Hs). reflexivity.
Qed.

Lemma skip_ws_nonws (c : N) (r : jstr) :
  is_ws c = false -> skip_ws (c :: r) = c :: r.
Proof. intros H. simpl. rewrite H. reflexivity. Qed.

Lemma expect_same (c : N) (r : jstr) : expect c (c :: r) = Some r.
Proof. simpl. rewrite N.eqb_refl. reflexivity. Qed.

Lemma parse_value_dq (f : nat) (r : jstr) :
  parse_value (S f) (DQ :: r) =
  match lex_string r with
  | Some (t, rest) => Some (JString t, rest)
  | None => None
  end.
Proof. reflexivity. Qed.

Lemma parse_members_dq (f : nat) acc (r : jstr) :
  parse_members (S f) acc (DQ :: r) =
  match lex_string r with
  | None => None
  | Some (k, r1) =>
      match expect 58 (skip_ws r1) with
      | None => None
      | Some r2 =>
          match parse_value f r2 with
          | None => None
          | Some (v, r3) =>
              match skip_ws r3 with
              | x :: r4 =>
                  if N.eqb x 44 then parse_members f (obj_set acc k v) r4
                  else if N.eqb x 125 then Some (JObject (obj_set acc k v), r4)
                  else None
              | [] => None
              end
          end
      end
  end.
Proof. reflexivity. Qed.

(** One member ["k":"x"] followed by the separator [sep]. *)
Lemma parse_members_pair (f : nat) acc k x sep rest :
  json_plain k = true -> json_plain x = true -> is_ws sep = false ->
  parse_members (S (S f)) acc (DQ :: k ++ DQ :: 58 :: DQ :: x ++ DQ :: sep :: rest) =
  if N.eqb sep 44 then parse_members (S f) (obj_set acc k (JString x)) rest
  else if N.eqb sep 125 then Some (JObject (obj_set acc k (JString x)), rest)
  else None.
Proof.
  intros Hk Hx Hsep.
  rewrite parse_members_dq, (lex_string_plain _ _ Hk).
  rewrite (skip_ws_nonws 58) by reflexivity. rewrite expect_same.
  rewrite parse_value_dq, (lex_string_plain _ _ Hx).
  rewrite (skip_ws_nonws sep) by exact Hsep. reflexivity.
Qed.

Lemma parse_value_city_info (f : nat) (X Y Z : jstr) :
  json_plain X = true -> json_plain Y = true -> json_plain Z = true ->
  parse_value (S (S (S (S (S f))))) (city_info_text X Y Z) = Some (city_info X Y Z, []).
Proof.
  intros HX HY HZ.
  change (city_info_text X Y Z) with
    (123 :: DQ :: js "city" ++ DQ :: 58 :: DQ :: X ++ DQ :: 44
       :: DQ :: js "industry" ++ DQ :: 58 :: DQ :: Y ++ DQ :: 44
       :: DQ :: js "fun" ++ DQ :: 58 :: DQ :: Z ++ DQ :: 125 :: []).
  change (parse_value (S (S (S (S (S f))))) (123 :: ?r))
    with (match expect 125 (skip_ws r) with
          | Some r' => Some (JObject [], r')
          | None => parse_members (S (S (S (S f)))) [] r
          end).
  rewrite (skip_ws_nonws DQ) by reflexivity.
  change (expect 125 (DQ :: ?r)) with (@None jstr).
  rewrite parse_members_pair by (reflexivity || assumption).
  change (N.eqb 44 44) with true. cbv iota.
  rewrite parse_members_pair by (reflexivity || assumption).
  change (N.eqb 44 44) with true. cbv iota.
  rewrite parse_members_pair by (reflexivity || assumption).
  reflexivity.
Qed.

Lemma json_parse_city_info (X Y Z : jstr) :
  json_plain X = true -> json_plain Y = true -> json_plain Z = true ->
  json_parse (city_info_text X Y Z) = Some (city_info X Y Z).
Proof.
  intros HX HY HZ.
  assert (Hl : (4 <= List.length (city_info_text X Y Z))%nat)
    by (unfold city_info_text; simpl; lia).
  unfold json_parse.
  replace (S (List.length (city_info_text X Y Z)))
    with (S (S (S (S (S (List.length (city_info_text X Y Z) - 4)%nat))))) by lia.
  rewrite parse_value_city_info by assumption. reflexivity.
Qed.

Lemma json_parse_nil : json_parse [] = None.
Proof. reflexivity. Qed.

Lemma json_parse_nonempty (c : jstr) (v : jvalue) :
  json_parse c = Some v -> truthy_string c = true.
Proof. destruct c; [discriminate|reflexivity]. Qed.

(** ** Reading a failure *)

(** The [message] property of a thrown [Error]. *)
Definition error_message (e : thrown) : option jstr :=
  match e with
  | ChatResponseErrorObj _ m _ => Some m
  | _ => None
  end.

(** The failure classes of the spec. *)
Inductive failure_kind := InvalidResponseStructure | ParseFailure | RequestFailure.

(** How a caller can tell the classes apart: by the [cause] of the
    error it receives, the inner error's [message] for the two errors
    raised by this module, anything else being the client's rejection. *)
Definition kind_of_error (e : thrown) : option failure_kind :=
  match e with
  | ChatResponseErrorObj _ _ (Some (CauseThrown inner)) =>
      match inner with
      | ChatResponseErrorObj _ m _ =>
          if jstr_eqb m (js "Invalid response structure") then Some InvalidResponseStructure
          else if jstr_eqb m (js "Failed to parse JSON") then Some ParseFailure
          else None
      | _ => Some RequestFailure
      end
  | _ => None
  end.

(** The city named in the message of the error [getChatResponse] throws. *)
Definition city_of_error (e : thrown) : option jstr :=
  match e with
  | ChatResponseErrorObj _ m _ =>
      if is_prefix failure_prefix m
      then Some (skipn (List.length failure_prefix) m) else None
  | _ => None
  end.

(** The request [getChatResponse city] sends. *)
Definition chat_request (city : jstr) : ChatRequest :=
  {| req_model := js "gemma:2b"; req_messages := constructMessages city schema |}.

Lemma getChatResponse_unfold chat city :
  getChatResponse chat city =
  match match chat (chat_request city) with
        | Ok response => validateAndParse response
        | Throw e => Throw e
        end with
  | Ok parsed => Ok parsed
  | Throw error =>
      Throw (ChatResponseError (failure_prefix ++ city) (Some (CauseThrown error)))
  end.
Proof. reflexivity. Qed.

Lemma is_prefix_app (p s : jstr) : is_prefix p (p ++ s) = true.
Proof. induction p; simpl; [reflexivity|]. rewrite N.eqb_refl, IHp. reflexivity. Qed.

Lemma skipn_app_length (p s : jstr) : skipn (List.length p) (p ++ s) = s.
Proof. induction p; simpl; auto. Qed.

Lemma includes_app (a b c : jstr) : includes (a ++ b ++ c) b = true.
Proof.
  induction a as [|x a IH]; simpl.
  - destruct b; simpl; [destruct c; reflexivity|].
    rewrite N.eqb_refl, is_prefix_app. reflexivity.
  - rewrite IH. apply orb_true_r.
Qed.

(** ** Claims *)

(** C1: for a raw response whose message content is the text
    [{"city":"X","industry":"Y","fun":"Z"}] (X, Y and Z written without
    escapes), validation and parsing succeed and return exactly the record
    [{city: X, industry: Y, fun: Z}]. *)
Theorem validateAndParse_city_info (r : ChatResponse) (X Y Z : jstr) :
  json_plain X = true -> json_plain Y = true -> json_plain Z = true ->
  response_content r = Some (city_info_text X Y Z) ->
  validateAndParse r = Ok (city_info X Y Z).
Proof.
  intros HX HY HZ Hr.
  unfold validateAndParse, isValidResponse. rewrite Hr.
  change (truthy_string (city_info_text X Y Z)) with true. cbv iota.
  unfold safeJsonParse. rewrite json_parse_city_info by assumption. reflexivity.
Qed.

Definition london_response : ChatResponse :=
  mkChatResponse (js "gemma:2b")
    (Some (mkResponseMessage (js "assistant")
             (Some (city_info_text (js "London") (js "Finance")
                      (js "Visit the British Museum"))))).

Lemma validateAndParse_city_info_witness :
  json_plain (js "London") = true /\ json_plain (js "Finance") = true
  /\ json_plain (js "Visit the British Museum") = true
  /\ validateAndParse london_response
     = Ok (city_info (js "London") (js "Finance") (js "Visit the British Museum")).
Proof.
  split; [reflexivity|]. split; [reflexivity|]. split; [reflexivity|].
  apply (validateAndParse_city_info london_response); reflexivity.
Defined.

(** C2: for every city, the empty one included, [constructMessages] with the
    program's schema returns exactly two messages: a ["system"] message whose
    content contains [JSON.stringify(schema, null, 2)] (and so the substring
    [industry], also in quotes), then a ["user"] message whose content is the
    city itself. *)
Theorem constructMessages_shape (city : jstr) :
  List.length (constructMessages city schema) = 2%nat
  /\ exists sys,
       constructMessages city schema
       = [mkMessage (js "system") sys; mkMessage (js "user") city]
       /\ includes sys (stringify schema) = true
       /\ includes sys (js "industry") = true
       /\ includes sys (dq "industry") = true.
Proof.
  split; [reflexivity|].
  exists (system_prompt_head ++ stringify schema ++ system_prompt_tail).
  split; [reflexivity|].
  split; [apply includes_app|].
  split; vm_compute; reflexivity.
Qed.

Example constructMessages_empty_city :
  constructMessages [] schema
  = [mkMessage (js "system") (system_prompt_head ++ stringify schema ++ system_prompt_tail);
     mkMessage (js "user") []].
Proof. reflexivity. Qed.

(** C7: [constructMessages] is a function of its inputs alone (of the city
    and of the serialized schema): calls on identical inputs return
    identical message lists. *)
Theorem constructMessages_deterministic (city1 city2 : jstr) (s1 s2 : jvalue) :
  city1 = city2 -> stringify s1 = stringify s2 ->
  constructMessages city1 s1 = constructMessages city2 s2.
Proof.
  intros -> Hs. unfold constructMessages. rewrite Hs. reflexivity.
Qed.

Lemma constructMessages_deterministic_witness :
  js "Paris" = js "Paris" /\ stringify schema = stringify schema
  /\ constructMessages (js "Paris") schema = constructMessages (js "Paris") schema.
Proof.
  split; [reflexivity|]. split; [reflexivity|].
  apply constructMessages_deterministic; reflexivity.
Defined.

(** C3: when the response has no message, or its message content is the
    empty string, validation fails with the ['Invalid response structure']
    [ChatResponseError], whose cause is the raw response. *)
Theorem validateAndParse_invalid_structure (r : ChatResponse) :
  (message r = None \/ exists m, message r = Some m /\ msg_content m = Some []) ->
  validateAndParse r
  = Throw (ChatResponseError (js "Invalid response structure") (Some (CauseResponse r))).
Proof.
  intros H. unfold validateAndParse, isValidResponse, response_content.
  destruct H as [H | [m [H Hc]]]; rewrite H; [reflexivity|].
  rewrite Hc. reflexivity.
Qed.

Definition empty_response : ChatResponse :=
  mkChatResponse (js "gemma:2b") (Some (mkResponseMessage (js "assistant") (Some []))).

Lemma validateAndParse_invalid_structure_witness :
  (message empty_response = None
   \/ exists m, message empty_response = Some m /\ msg_content m = Some [])
  /\ validateAndParse empty_response
     = Throw (ChatResponseError (js "Invalid response structure")
                (Some (CauseResponse empty_response))).
Proof.
  assert (H : message empty_response = None
              \/ exists m, message empty_response = Some m /\ msg_content m = Some []).
  { right. eexists. split; reflexivity. }
  split; [exact H|]. apply validateAndParse_invalid_structure. exact H.
Defined.

(** C10: validation fails with the invalid-structure error exactly when the
    message or its content is absent or the content is the empty string;
    for any non-empty content (blank or not JSON alike) it goes on to
    [safeJsonParse] on that content. *)
Theorem validateAndParse_validation_iff (r : ChatResponse) :
  (validateAndParse r
   = Throw (ChatResponseError (js "Invalid response structure") (Some (CauseResponse r)))
   <-> response_content r = None \/ response_content r = Some [])
  /\ (forall c, response_content r = Some c -> c <> [] ->
      validateAndParse r = safeJsonParse c).
Proof.
  unfold validateAndParse, isValidResponse.
  destruct (response_content r) as [[|x c]|] eqn:Hr; simpl.
  - split; [tauto|]. intros c Hc Hne. injection Hc as <-. contradiction.
  - split.
    + split; [|intros [H|H]; discriminate].
      unfold safeJsonParse. destruct (json_parse (x :: c)); discriminate.
    + intros c' Hc _. injection Hc as <-. reflexivity.
  - split; [tauto|]. intros c Hc. discriminate.
Qed.

Definition blank_response : ChatResponse :=
  mkChatResponse (js "gemma:2b") (Some (mkResponseMessage (js "assistant") (Some (js "   ")))).

Lemma validateAndParse_validation_iff_witness :
  response_content blank_response = Some (js "   ") /\ js "   " <> []
  /\ validateAndParse blank_response = safeJsonParse (js "   ").
Proof.
  split; [reflexivity|]. split; [discriminate|].
  apply (proj2 (validateAndParse_validation_iff blank_response)); [reflexivity|discriminate].
Defined.

(** C4 (as stated): valid JSON that is not an object is not rejected by the
    parse step: [safeJsonParse('42')] returns the number 42. *)
Lemma safeJsonParse_non_object_accepted :
  json_parse (js "42") = Some (JNumber (js "42"))
  /\ safeJsonParse (js "42") = Ok (JNumber (js "42")).
Proof. split; reflexivity. Qed.

(** C4 (amended): a content text that [JSON.parse] rejects makes the parse
    step throw the ['Failed to parse JSON'] [ChatResponseError] whose cause
    is [{ cause: <the SyntaxError>, rawResponse: <the text> }]; a text that
    [JSON.parse] accepts, object or not, is returned as parsed. *)
Theorem safeJsonParse_spec (text : jstr) :
  (json_parse text = None ->
   safeJsonParse text
   = Throw (ChatResponseError (js "Failed to parse JSON")
              (Some (CauseParse JsonSyntaxError text))))
  /\ (forall v, json_parse text = Some v -> safeJsonParse text = Ok v).
Proof.
  unfold safeJsonParse. split.
  - intros H. rewrite H. reflexivity.
  - intros v H. rewrite H. reflexivity.
Qed.

Lemma safeJsonParse_spec_witness :
  json_parse (js "{city: London}") = None
  /\ safeJsonParse (js "{city: London}")
     = Throw (ChatResponseError (js "Failed to parse JSON")
                (Some (CauseParse JsonSyntaxError (js "{city: London}")))).
Proof.
  split; [reflexivity|]. apply (proj1 (safeJsonParse_spec (js "{city: London}"))).
  reflexivity.
Defined.

(** C8: a content that parses as a JSON object, whatever its keys and
    values, is returned as is by validation and parsing: no check that
    [city], [industry] and [fun] are present or non-null. *)
Theorem validateAndParse_any_object (r : ChatResponse) (c : jstr)
    (props : list (jstr * jvalue)) :
  response_content r = Some c -> json_parse c = Some (JObject props) ->
  validateAndParse r = Ok (JObject props).
Proof.
  intros Hr Hc. unfold validateAndParse, isValidResponse. rewrite Hr.
  rewrite (json_parse_nonempty _ _ Hc). unfold safeJsonParse. rewrite Hc.
  reflexivity.
Qed.

(** The text [{"city":null}]. *)
Definition null_city_text : jstr := js "{" ++ dq "city" ++ js ":null}".

Definition null_city_response : ChatResponse :=
  mkChatResponse (js "gemma:2b")
    (Some (mkResponseMessage (js "assistant") (Some null_city_text))).

Lemma validateAndParse_any_object_witness :
  response_content null_city_response = Some null_city_text
  /\ json_parse null_city_text = Some (JObject [(js "city", JNull)])
  /\ validateAndParse null_city_response = Ok (JObject [(js "city", JNull)]).
Proof.
  split; [reflexivity|]. split; [reflexivity|].
  apply (validateAndParse_any_object _ null_city_text); reflexivity.
Defined.

(** C9: whatever fails inside [getChatResponse], the client call or the
    validation and parsing of its response, the caller receives the
    [ChatResponseError] ['Failed to get chat response for city: <city>']
    whose cause is the inner error. *)
Theorem getChatResponse_error_wrapped chat (city : jstr) (e : thrown) :
  getChatResponse chat city = Throw e ->
  exists inner,
    e = ChatResponseError (failure_prefix ++ city) (Some (CauseThrown inner))
    /\ match chat (chat_request city) with
       | Throw t => inner = t
       | Ok response => validateAndParse response = Throw inner
       end.
Proof.
  rewrite getChatResponse_unfold.
  destruct (chat (chat_request city)) as [response | t].
  - destruct (validateAndParse response) as [v | inner] eqn:Hv; [discriminate|].
    intros H. injection H as <-. exists inner. split; reflexivity.
  - intros H. injection H as <-. exists t. split; reflexivity.
Qed.

(** A client whose calls all reject, and one that answers [text]. *)
Definition chat_down : ChatRequest -> result ChatResponse :=
  fun _ => Throw (TransportError (js "ECONNREFUSED")).

Definition chat_answering (text : jstr) : ChatRequest -> result ChatResponse :=
  fun _ => Ok (mkChatResponse (js "gemma:2b")
                 (Some (mkResponseMessage (js "assistant") (Some text)))).

Lemma getChatResponse_error_wrapped_witness :
  getChatResponse (chat_answering (js "{city: London}")) (js "London")
  = Throw (ChatResponseError (failure_prefix ++ js "London")
             (Some (CauseThrown (ChatResponseError (js "Failed to parse JSON")
                (Some (CauseParse JsonSyntaxError (js "{city: London}")))))))
  /\ exists inner,
    ChatResponseError (failure_prefix ++ js "London")
      (Some (CauseThrown (ChatResponseError (js "Failed to parse JSON")
         (Some (CauseParse JsonSyntaxError (js "{city: London}"))))))
    = ChatResponseError (failure_prefix ++ js "London") (Some (CauseThrown inner))
    /\ validateAndParse (mkChatResponse (js "gemma:2b")
         (Some (mkResponseMessage (js "assistant") (Some (js "{city: London}")))))
       = Throw inner.
Proof.
  split; [reflexivity|].
  exact (getChatResponse_error_wrapped (chat_answering (js "{city: London}")) (js "London") _
           eq_refl).
Defined.

(** C6: when the client call rejects with a transport error, the caller
    receives the [ChatResponseError] whose cause is that error and whose
    message ends with the city queried, which [city_of_error] recovers. *)
Theorem getChatResponse_request_failure chat (city payload : jstr) :
  chat (chat_request city) = Throw (TransportError payload) ->
  exists e,
    getChatResponse chat city = Throw e
    /\ e = ChatResponseError (failure_prefix ++ city)
             (Some (CauseThrown (TransportError payload)))
    /\ kind_of_error e = Some RequestFailure
    /\ city_of_error e = Some city.
Proof.
  intros H. rewrite getChatResponse_unfold, H.
  eexists. split; [reflexivity|]. split; [reflexivity|]. split; [reflexivity|].
  unfold city_of_error, ChatResponseError.
  rewrite is_prefix_app, skipn_app_length. reflexivity.
Qed.

Lemma getChatResponse_request_failure_witness :
  chat_down (chat_request (js "London")) = Throw (TransportError (js "ECONNREFUSED"))
  /\ exists e,
    getChatResponse chat_down (js "London") = Throw e
    /\ e = ChatResponseError (failure_prefix ++ js "London")
             (Some (CauseThrown (TransportError (js "ECONNREFUSED"))))
    /\ kind_of_error e = Some RequestFailure
    /\ city_of_error e = Some (js "London").
Proof.
  split; [reflexivity|]. apply getChatResponse_request_failure. reflexivity.
Defined.

(** C5 (as stated): the three kinds of failure reach the caller with the
    same [name] (and even the same [message]): an empty answer, an answer
    that is not JSON, and a rejected call, for the city London. *)
Lemma getChatResponse_kinds_share_name :
  match getChatResponse (chat_answering []) (js "London"),
        getChatResponse (chat_answering (js "{city: London}")) (js "London"),
        getChatResponse chat_down (js "London") with
  | Throw e1, Throw e2, Throw e3 =>
      error_name e1 = Some (js "ChatResponseError")
      /\ error_name e2 = error_name e1 /\ error_name e3 = error_name e1
      /\ error_message e2 = error_message e1 /\ error_message e3 = error_message e1
  | _, _, _ => False
  end.
Proof. vm_compute. repeat split. Qed.

Section ErrorKinds.

(** The Ollama client: it rejects with errors of its own (network or HTTP
    errors), never with an error of this module. *)
Variable chat : ChatRequest -> result ChatResponse.
Hypothesis chat_rejects_with_transport_errors :
  forall req t, chat req = Throw t -> exists payload, t = TransportError payload.

(** C5 (amended): every failure reaches the caller as a [ChatResponseError]
    named ['ChatResponseError'] with the message
    ['Failed to get chat response for city: <city>']; the kind of failure
    is told by its cause, not by the name: an inner error with message
    ['Invalid response structure'] for an unusable response, one with
    message ['Failed to parse JSON'] for an unparsable content, the
    client's rejection for a failed request.  The cause is the inner
    error itself: the [ChatResponseError] raised by the validation or the
    parse, or the very value the client rejected with. *)
Theorem getChatResponse_error_kind (city : jstr) (e : thrown) :
  getChatResponse chat city = Throw e ->
  error_name e = Some (js "ChatResponseError")
  /\ error_message e = Some (failure_prefix ++ city)
  /\ kind_of_error e
     = Some (match chat (chat_request city) with
             | Throw _ => RequestFailure
             | Ok response =>
                 if isValidResponse response then ParseFailure
                 else InvalidResponseStructure
             end)
  /\ exists inner,
       e = ChatResponseError (failure_prefix ++ city) (Some (CauseThrown inner))
       /\ match chat (chat_request city) with
          | Throw t => inner = t
          | Ok response =>
              error_name inner = Some (js "ChatResponseError")
              /\ error_message inner
                 = Some (if isValidResponse response then js "Failed to parse JSON"
                         else js "Invalid response structure")
          end.
Proof.
  rewrite getChatResponse_unfold.
  destruct (chat (chat_request city)) as [response | t] eqn:Hc.
  - unfold validateAndParse.
    destruct (isValidResponse response).
    + unfold safeJsonParse.
      destruct (json_parse _); [discriminate|].
      intros H. injection H as <-. repeat split.
      eexists. split; [reflexivity|]. split; reflexivity.
    + intros H. injection H as <-. repeat split.
      eexists. split; [reflexivity|]. split; reflexivity.
  - destruct (chat_rejects_with_transport_errors _ _ Hc) as [p ->].
    intros H. injection H as <-. repeat split.
    eexists. split; reflexivity.
Qed.

End ErrorKinds.

Lemma getChatResponse_error_kind_witness :
  (forall req t, chat_down req = Throw t -> exists payload, t = TransportError payload)
  /\ error_name (ChatResponseError (failure_prefix ++ js "London")
                   (Some (CauseThrown (TransportError (js "ECONNREFUSED")))))
     = Some (js "ChatResponseError")
  /\ error_message (ChatResponseError (failure_prefix ++ js "London")
                      (Some (CauseThrown (TransportError (js "ECONNREFUSED")))))
     = Some (failure_prefix ++ js "London")
  /\ kind_of_error (ChatResponseError (failure_prefix ++ js "London")
                      (Some (CauseThrown (TransportError (js "ECONNREFUSED")))))
     = Some RequestFailure
  /\ exists inner,
       ChatResponseError (failure_prefix ++ js "London")
         (Some (CauseThrown (TransportError (js "ECONNREFUSED"))))
       = ChatResponseError (failure_prefix ++ js "London") (Some (CauseThrown inner))
       /\ inner = TransportError (js "ECONNREFUSED").
Proof.
  assert (H : forall req t, chat_down req = Throw t ->
              exists payload, t = TransportError payload).
  { intros req t Ht. injection Ht as <-. eexists. reflexivity. }
  split; [exact H|].
  exact (getChatResponse_error_kind chat_down H (js "London") _ eq_refl).
Defined.

(** ** Further properties of [getChatResponse] and its steps *)

Lemma skip_ws_all_ws (c : jstr) : forallb is_ws c = true -> skip_ws c = [].
Proof.
  induction c as [|x c IH]; simpl; [reflexivity|].
  intros H. apply andb_prop in H as [Hx Hc]. rewrite Hx. exact (IH Hc).
Qed.

Lemma parse_value_blank (f : nat) (s : jstr) : skip_ws s = [] -> parse_value f s = None.
Proof.
  intros H. destruct f as [|f]; [reflexivity|].
  cbn [parse_value]. rewrite H. reflexivity.
Qed.

(** [getChatResponse] resolves exactly when the client answers with a
    response whose content is non-empty and parses as JSON; the result is
    then the parsed value, with no default or fallback value otherwise. *)
Theorem getChatResponse_ok_iff chat (city : jstr) (v : jvalue) :
  getChatResponse chat city = Ok v <->
  exists response c,
    chat (chat_request city) = Ok response
    /\ response_content response = Some c
    /\ json_parse c = Some v.
Proof.
  rewrite getChatResponse_unfold. split.
  - destruct (chat (chat_request city)) as [response | t]; [|discriminate].
    unfold validateAndParse, isValidResponse.
    destruct (response_content response) as [c|] eqn:Hr; [|discriminate].
    destruct (truthy_string c); [|discriminate].
    unfold safeJsonParse. destruct (json_parse c) as [w|] eqn:Hc; [|discriminate].
    intros H. injection H as ->. exists response, c. auto.
  - intros (response & c & Hchat & Hr & Hc). rewrite Hchat.
    unfold validateAndParse, isValidResponse. rewrite Hr.
    rewrite (json_parse_nonempty _ _ Hc). unfold safeJsonParse. rewrite Hc.
    reflexivity.
Qed.

Lemma getChatResponse_ok_iff_witness :
  getChatResponse (chat_answering null_city_text) (js "Paris")
  = Ok (JObject [(js "city", JNull)])
  /\ exists response c,
    chat_answering null_city_text (chat_request (js "Paris")) = Ok response
    /\ response_content response = Some c
    /\ json_parse c = Some (JObject [(js "city", JNull)]).
Proof.
  assert (H : getChatResponse (chat_answering null_city_text) (js "Paris")
              = Ok (JObject [(js "city", JNull)])) by reflexivity.
  split; [exact H|]. apply getChatResponse_ok_iff. exact H.
Defined.

(** End to end, an answer whose non-empty content [JSON.parse] rejects
    reaches the caller as the city's error, whose cause is the
    ['Failed to parse JSON'] error, which keeps the content verbatim as
    [rawResponse]. *)
Theorem getChatResponse_parse_failure chat (city c : jstr) (response : ChatResponse) :
  chat (chat_request city) = Ok response ->
  response_content response = Some c -> c <> [] -> json_parse c = None ->
  getChatResponse chat city
  = Throw (ChatResponseError (failure_prefix ++ city)
             (Some (CauseThrown
                (ChatResponseError (js "Failed to parse JSON")
                   (Some (CauseParse JsonSyntaxError c)))))).
Proof.
  intros Hchat Hr Hne Hc. rewrite getChatResponse_unfold, Hchat.
  unfold validateAndParse, isValidResponse. rewrite Hr.
  destruct c as [|x c]; [contradiction|]. simpl truthy_string. cbv iota.
  unfold safeJsonParse. rewrite Hc. reflexivity.
Qed.

Lemma getChatResponse_parse_failure_witness :
  getChatResponse (chat_answering (js "Sure! {city: London}")) (js "London")
  = Throw (ChatResponseError (failure_prefix ++ js "London")
             (Some (CauseThrown
                (ChatResponseError (js "Failed to parse JSON")
                   (Some (CauseParse JsonSyntaxError (js "Sure! {city: London}"))))))).
Proof.
  apply (getChatResponse_parse_failure _ _ _
           (mkChatResponse (js "gemma:2b")
              (Some (mkResponseMessage (js "assistant") (Some (js "Sure! {city: London}"))))));
    [reflexivity | reflexivity | discriminate | reflexivity].
Defined.

(** A content made of whitespace only (spaces, tabs, line breaks) passes the
    structure check, being non-empty, and is then rejected by the parser:
    it fails as a parse failure, not as an invalid structure. *)
Theorem validateAndParse_blank_content (r : ChatResponse) (c : jstr) :
  response_content r = Some c -> c <> [] -> forallb is_ws c = true ->
  validateAndParse r
  = Throw (ChatResponseError (js "Failed to parse JSON")
             (Some (CauseParse JsonSyntaxError c))).
Proof.
  intros Hr Hne Hws. unfold validateAndParse, isValidResponse. rewrite Hr.
  destruct c as [|x c']; [contradiction|]. simpl truthy_string. cbv iota.
  unfold safeJsonParse, json_parse.
  rewrite (parse_value_blank _ _ (skip_ws_all_ws _ Hws)). reflexivity.
Qed.

Lemma validateAndParse_blank_content_witness :
  validateAndParse blank_response
  = Throw (ChatResponseError (js "Failed to parse JSON")
             (Some (CauseParse JsonSyntaxError (js "   ")))).
Proof.
  apply validateAndParse_blank_content; [reflexivity | discriminate | reflexivity].
Defined.

(** ** Console output and the example usage *)

(** The arguments passed to [console.log] / [console.error]. *)
Inductive console_arg : Type :=
| ArgResponse (r : ChatResponse)
| ArgValue (v : jvalue)
| ArgError (e : thrown).

Inductive console_call : Type :=
| ConsoleLog (label : jstr) (arg : console_arg)
| ConsoleError (label : jstr) (arg : console_arg).

Definition is_console_error (c : console_call) : bool :=
  match c with ConsoleError _ _ => true | ConsoleLog _ _ => false end.

(** [getChatResponse(city)] with its console output, in call order:
    ['Raw ChatResponse:'] once the client has answered,
    ['Parsed Chat Response:'] after a successful parse, and
    ['Error fetching chat response:'] in the [catch] block. *)
Definition getChatResponse_traced (chat : ChatRequest -> result ChatResponse)
    (city : jstr) : list console_call * result jvalue :=
  let messages := constructMessages city schema in
  let '(out, attempt) :=
    match chat {| req_model := js "gemma:2b"; req_messages := messages |} with
    | Throw e => ([], Throw e)
    | Ok response =>
        let out := [ConsoleLog (js "Raw ChatResponse:") (ArgResponse response)] in
        if isValidResponse response then
          match safeJsonParse (match response_content response with
                               | Some c => c
                               | None => []
                               end) with
          | Ok parsed =>
              (out ++ [ConsoleLog (js "Parsed Chat Response:") (ArgValue parsed)],
               Ok parsed)
          | Throw e => (out, Throw e)
          end
        else
          (out, Throw (ChatResponseError (js "Invalid response structure")
                         (Some (CauseResponse response))))
    end in
  match attempt with
  | Ok parsed => (out, Ok parsed)
  | Throw error =>
      (out ++ [ConsoleError (js "Error fetching chat response:") (ArgError error)],
       Throw (ChatResponseError (failure_prefix ++ city) (Some (CauseThrown error))))
  end.

(** The example usage at the end of the module:
    [getChatResponse('London').then(log 'Final Parsed Response:').catch(error 'Error:')]. *)
Definition example_usage (chat : ChatRequest -> result ChatResponse) : list console_call :=
  let '(out, res) := getChatResponse_traced chat (js "London") in
  out ++ match res with
         | Ok response => [ConsoleLog (js "Final Parsed Response:") (ArgValue response)]
         | Throw err => [ConsoleError (js "Error:") (ArgError err)]
         end.

Definition london_text : jstr :=
  city_info_text (js "London") (js "Finance") (js "Visit the British Museum").

Definition london_info : jvalue :=
  city_info (js "London") (js "Finance") (js "Visit the British Museum").

(* The console output of a call that resolves. *)
Lemma traced_success_log chat (city : jstr) (response : ChatResponse)
    (v : jvalue) :
  chat (chat_request city) = Ok response ->
  getChatResponse chat city = Ok v ->
  getChatResponse_traced chat city
  = ([ConsoleLog (js "Raw ChatResponse:") (ArgResponse response);
      ConsoleLog (js "Parsed Chat Response:") (ArgValue v)], Ok v).
Proof.
  intros Hchat. rewrite getChatResponse_unfold, Hchat.
  unfold getChatResponse_traced.
  change {| req_model := js "gemma:2b"; req_messages := constructMessages city schema |}
    with (chat_request city).
  rewrite Hchat. unfold validateAndParse.
  destruct (isValidResponse response); [|discriminate].
  destruct (safeJsonParse _) as [w|]; [|discriminate].
  intros H. injection H as ->. reflexivity.
Qed.

(** On success [getChatResponse] prints exactly the raw response and then the
    parsed value, both with [console.log]. *)
Theorem getChatResponse_traced_success chat (city : jstr) (response : ChatResponse)
    (v : jvalue) :
  chat (chat_request city) = Ok response ->
  getChatResponse chat city = Ok v ->
  getChatResponse_traced chat city
  = ([ConsoleLog (js "Raw ChatResponse:") (ArgResponse response);
      ConsoleLog (js "Parsed Chat Response:") (ArgValue v)], Ok v).
Proof. exact (traced_success_log chat city response v). Qed.

Lemma getChatResponse_traced_success_witness :
  getChatResponse_traced (chat_answering null_city_text) (js "Paris")
  = ([ConsoleLog (js "Raw ChatResponse:")
        (ArgResponse (mkChatResponse (js "gemma:2b")
           (Some (mkResponseMessage (js "assistant") (Some null_city_text)))));
      ConsoleLog (js "Parsed Chat Response:") (ArgValue (JObject [(js "city", JNull)]))],
     Ok (JObject [(js "city", JNull)])).
Proof. apply getChatResponse_traced_success; reflexivity. Defined.

(* The console output of a call that rejects. *)
Lemma traced_failure_log chat (city : jstr) (e : thrown) :
  getChatResponse chat city = Throw e ->
  exists inner,
    e = ChatResponseError (failure_prefix ++ city) (Some (CauseThrown inner))
    /\ getChatResponse_traced chat city
       = (match chat (chat_request city) with
          | Throw _ => []
          | Ok response => [ConsoleLog (js "Raw ChatResponse:") (ArgResponse response)]
          end
          ++ [ConsoleError (js "Error fetching chat response:") (ArgError inner)],
          Throw e).
Proof.
  rewrite getChatResponse_unfold. unfold getChatResponse_traced.
  change {| req_model := js "gemma:2b"; req_messages := constructMessages city schema |}
    with (chat_request city).
  destruct (chat (chat_request city)) as [response | t].
  - unfold validateAndParse.
    destruct (isValidResponse response).
    + destruct (safeJsonParse _) as [w | inner]; [discriminate|].
      intros H. injection H as <-. exists inner. split; reflexivity.
    + intros H. injection H as <-. eexists. split; reflexivity.
  - intros H. injection H as <-. exists t. split; reflexivity.
Qed.

(** On failure [getChatResponse] prints the inner error once with
    [console.error], as its last output, after the raw response if the
    client answered; what it throws is that error wrapped. *)
Theorem getChatResponse_traced_failure chat (city : jstr) (e : thrown) :
  getChatResponse chat city = Throw e ->
  exists inner,
    e = ChatResponseError (failure_prefix ++ city) (Some (CauseThrown inner))
    /\ getChatResponse_traced chat city
       = (match chat (chat_request city) with
          | Throw _ => []
          | Ok response => [ConsoleLog (js "Raw ChatResponse:") (ArgResponse response)]
          end
          ++ [ConsoleError (js "Error fetching chat response:") (ArgError inner)],
          Throw e).
Proof. exact (traced_failure_log chat city e). Qed.

Lemma getChatResponse_traced_failure_witness :
  exists inner,
    ChatResponseError (failure_prefix ++ js "London")
      (Some (CauseThrown (TransportError (js "ECONNREFUSED"))))
    = ChatResponseError (failure_prefix ++ js "London") (Some (CauseThrown inner))
    /\ getChatResponse_traced chat_down (js "London")
       = ([] ++ [ConsoleError (js "Error fetching chat response:") (ArgError inner)],
          Throw (ChatResponseError (failure_prefix ++ js "London")
                   (Some (CauseThrown (TransportError (js "ECONNREFUSED")))))).
Proof. exact (getChatResponse_traced_failure chat_down (js "London") _ eq_refl). Defined.

(** The example usage never leaves the promise rejected: when the request
    for London fails, its whole output is the raw response (if the client
    answered), the inner error printed with [console.error] inside
    [getChatResponse], and the wrapped error printed with [console.error]
    by the [catch] handler, last; nothing is printed with the
    final-response label. *)
Theorem example_usage_failure chat (e : thrown) :
  getChatResponse chat (js "London") = Throw e ->
  exists inner,
    e = ChatResponseError (failure_prefix ++ js "London") (Some (CauseThrown inner))
    /\ example_usage chat
       = match chat (chat_request (js "London")) with
         | Throw _ => []
         | Ok response => [ConsoleLog (js "Raw ChatResponse:") (ArgResponse response)]
         end
         ++ [ConsoleError (js "Error fetching chat response:") (ArgError inner);
             ConsoleError (js "Error:") (ArgError e)]
    /\ filter is_console_error (example_usage chat)
       = [ConsoleError (js "Error fetching chat response:") (ArgError inner);
          ConsoleError (js "Error:") (ArgError e)]
    /\ last (example_usage chat) (ConsoleLog [] (ArgError e))
       = ConsoleError (js "Error:") (ArgError e)
    /\ (forall arg, ~ In (ConsoleLog (js "Final Parsed Response:") arg) (example_usage chat)).
Proof.
  intros H. destruct (traced_failure_log _ _ _ H) as (inner & He & Ht).
  assert (Hout : example_usage chat
                 = match chat (chat_request (js "London")) with
                   | Throw _ => []
                   | Ok response => [ConsoleLog (js "Raw ChatResponse:") (ArgResponse response)]
                   end
                   ++ [ConsoleError (js "Error fetching chat response:") (ArgError inner);
                       ConsoleError (js "Error:") (ArgError e)]).
  { unfold example_usage. rewrite Ht, <- app_assoc. reflexivity. }
  exists inner. split; [exact He|]. split; [exact Hout|]. rewrite Hout.
  split; [|split].
  - destruct (chat (chat_request (js "London"))); reflexivity.
  - change [ConsoleError (js "Error fetching chat response:") (ArgError inner);
            ConsoleError (js "Error:") (ArgError e)]
      with ([ConsoleError (js "Error fetching chat response:") (ArgError inner)]
            ++ [ConsoleError (js "Error:") (ArgError e)]).
    rewrite app_assoc, last_last. reflexivity.
  - intros arg Hin.
    destruct (chat (chat_request (js "London"))) as [response|t]; simpl in Hin;
      repeat destruct Hin as [Hin|Hin]; try discriminate; try contradiction.
    all: injection Hin as Hl _; vm_compute in Hl; discriminate.
Qed.

Definition london_down_error : thrown :=
  ChatResponseError (failure_prefix ++ js "London")
    (Some (CauseThrown (TransportError (js "ECONNREFUSED")))).

Lemma example_usage_failure_witness :
  exists inner,
    london_down_error
    = ChatResponseError (failure_prefix ++ js "London") (Some (CauseThrown inner))
    /\ example_usage chat_down
       = match chat_down (chat_request (js "London")) with
         | Throw _ => []
         | Ok response => [ConsoleLog (js "Raw ChatResponse:") (ArgResponse response)]
         end
         ++ [ConsoleError (js "Error fetching chat response:") (ArgError inner);
             ConsoleError (js "Error:") (ArgError london_down_error)]
    /\ filter is_console_error (example_usage chat_down)
       = [ConsoleError (js "Error fetching chat response:") (ArgError inner);
          ConsoleError (js "Error:") (ArgError london_down_error)]
    /\ last (example_usage chat_down) (ConsoleLog [] (ArgError london_down_error))
       = ConsoleError (js "Error:") (ArgError london_down_error)
    /\ (forall arg,
          ~ In (ConsoleLog (js "Final Parsed Response:") arg) (example_usage chat_down)).
Proof. exact (example_usage_failure chat_down london_down_error eq_refl). Defined.

(** On success the example usage prints, with [console.log] only, the raw
    response, the parsed value inside [getChatResponse], and the same value
    as the final response. *)
Theorem example_usage_success chat (response : ChatResponse) (v : jvalue) :
  chat (chat_request (js "London")) = Ok response ->
  getChatResponse chat (js "London") = Ok v ->
  example_usage chat
  = [ConsoleLog (js "Raw ChatResponse:") (ArgResponse response);
     ConsoleLog (js "Parsed Chat Response:") (ArgValue v);
     ConsoleLog (js "Final Parsed Response:") (ArgValue v)].
Proof.
  intros Hchat Hok. unfold example_usage.
  rewrite (traced_success_log _ _ _ _ Hchat Hok). reflexivity.
Qed.

Lemma example_usage_success_witness :
  example_usage (chat_answering london_text)
  = [ConsoleLog (js "Raw ChatResponse:")
       (ArgResponse (mkChatResponse (js "gemma:2b")
          (Some (mkResponseMessage (js "assistant") (Some london_text)))));
     ConsoleLog (js "Parsed Chat Response:") (ArgValue london_info);
     ConsoleLog (js "Final Parsed Response:") (ArgValue london_info)].
Proof. apply example_usage_success; reflexivity. Defined.

(** ** The serialized schema reads back as the schema *)

(** Object keys pairwise distinct. *)
Definition key_fresh (k : jstr) (ps : list (jstr * jvalue)) : bool :=
  forallb (fun p => negb (jstr_eqb k (fst p))) ps.

Fixpoint distinct_keys (ps : list (jstr * jvalue)) : bool :=
  match ps with
  | [] => true
  | (k, _) :: rest => key_fresh k rest && distinct_keys rest
  end.

(** Values without numbers (whose [JSON.stringify] text is the canonical
    number form, not kept by this model) and with distinct keys in every
    object. *)
Fixpoint plain_value (v : jvalue) : bool :=
  match v with
  | JNumber _ => false
  | JArray xs =>
      (fix all (xs : list jvalue) : bool :=
         match xs with [] => true | x :: r => plain_value x && all r end) xs
  | JObject ps =>
      distinct_keys ps
      && (fix all (ps : list (jstr * jvalue)) : bool :=
            match ps with [] => true | (_, x) :: r => plain_value x && all r end) ps
  | _ => true
  end.

Lemma jstr_eqb_eq (a b : jstr) : jstr_eqb a b = true <-> a = b.
Proof.
  revert b; induction a as [|x a IH]; intros [|y b]; simpl;
    try (split; intros H; discriminate H || reflexivity).
  rewrite andb_true_iff, N.eqb_eq, IH. split.
  - intros [-> ->]. reflexivity.
  - intros H. injection H as -> ->. auto.
Qed.

Lemma jstr_eqb_sym (a b : jstr) : jstr_eqb a b = jstr_eqb b a.
Proof.
  destruct (jstr_eqb a b) eqn:H1, (jstr_eqb b a) eqn:H2; auto.
  - apply jstr_eqb_eq in H1. subst. rewrite <- H2. symmetry. apply jstr_eqb_eq. reflexivity.
  - apply jstr_eqb_eq in H2. subst. rewrite <- H1. apply jstr_eqb_eq. reflexivity.
Qed.

Lemma obj_set_fresh (acc : list (jstr * jvalue)) (k : jstr) (v : jvalue) :
  forallb (fun p => negb (jstr_eqb k (fst p))) acc = true ->
  obj_set acc k v = acc ++ [(k, v)].
Proof.
  induction acc as [|[k' v'] acc IH]; simpl; [reflexivity|].
  intros H. apply andb_prop in H as [H1 H2]. apply negb_true_iff in H1.
  rewrite H1, (IH H2). reflexivity.
Qed.

(** In [acc ++ (k, x) :: r] with distinct keys, [k] is fresh for [acc]. *)
Lemma distinct_keys_mid (acc : list (jstr * jvalue)) k x r :
  distinct_keys (acc ++ (k, x) :: r) = true ->
  forallb (fun p => negb (jstr_eqb k (fst p))) acc = true
  /\ distinct_keys ((acc ++ [(k, x)]) ++ r) = true.
Proof.
  rewrite <- app_assoc. simpl. intros H. split; [|exact H].
  induction acc as [|[k' v'] acc IH]; [reflexivity|].
  simpl in H |- *. apply andb_prop in H as [Hf Hd].
  rewrite (IH Hd), andb_true_r.
  unfold key_fresh in Hf. rewrite forallb_app in Hf. simpl in Hf.
  apply andb_prop in Hf as [_ Hf]. apply andb_prop in Hf as [Hf _].
  simpl in Hf. rewrite jstr_eqb_sym. exact Hf.
Qed.

Lemma skip_ws_app_ws (w s : jstr) : forallb is_ws w = true -> skip_ws (w ++ s) = skip_ws s.
Proof.
  induction w as [|c w IH]; simpl; [reflexivity|].
  intros H. apply andb_prop in H as [Hc Hw]. rewrite Hc. exact (IH Hw).
Qed.

Lemma parse_value_ws_app (f : nat) (w s : jstr) :
  forallb is_ws w = true -> parse_value f (w ++ s) = parse_value f s.
Proof.
  intros H. destruct f as [|f]; [reflexivity|].
  cbn [parse_value]. rewrite (skip_ws_app_ws _ _ H). reflexivity.
Qed.

Lemma join_cons (sep x : jstr) (xs : list jstr) :
  join sep (x :: xs) = x ++ List.concat (map (fun y => sep ++ y) xs).
Proof.
  revert x; induction xs as [|y xs IH]; intros x.
  - simpl. rewrite app_nil_r. reflexivity.
  - change (join sep (x :: y :: xs)) with (x ++ sep ++ join sep (y :: xs)).
    rewrite IH. cbn [map List.concat]. rewrite !app_assoc. reflexivity.
Qed.

Lemma hex_val_digit (d : N) : d < 16 -> hex_val (hex_digit d) = Some d.
Proof.
  intros H. assert (Hn : (N.to_nat d < 16)%nat) by lia.
  rewrite <- (N2Nat.id d). generalize (N.to_nat d) Hn. clear. intros n Hn.
  do 16 (destruct n as [|n]; [reflexivity|]). lia.
Qed.

Lemma hex4_escape (c : N) :
  c < 65536 ->
  hex4 [hex_digit (c / 4096); hex_digit ((c / 256) mod 16);
        hex_digit ((c / 16) mod 16); hex_digit (c mod 16)] = Some (c, []).
Proof.
  intros H. unfold hex4.
  rewrite !hex_val_digit
    by first [apply N.mod_lt; lia | apply N.Div0.div_lt_upper_bound; lia].
  do 2 f_equal.
  pose proof (N.div_mod c 16 ltac:(lia)) as E1.
  pose proof (N.div_mod (c / 16) 16 ltac:(lia)) as E2.
  pose proof (N.div_mod (c / 16 / 16) 16 ltac:(lia)) as E3.
  rewrite N.Div0.div_div in E2, E3. rewrite N.Div0.div_div in E3.
  change (16 * 16) with 256 in E2, E3. change (256 * 16) with 4096 in E3.
  lia.
Qed.

Lemma lex_string_escape (c : N) (t : jstr) :
  c < 65536 ->
  lex_string (unicode_escape c ++ t) =
  match lex_string t with
  | Some (u, r) => Some (c :: u, r)
  | None => None
  end.
Proof.
  intros H. unfold unicode_escape. cbn [app].
  change (lex_string (BSL :: 117 :: ?a :: ?b :: ?c4 :: ?d :: t))
    with (match hex4 [a; b; c4; d] with
          | Some (u, _) =>
              match lex_string t with
              | Some (x, rest) => Some (u :: x, rest)
              | None => None
              end
          | None => None
          end).
  rewrite (hex4_escape c H). reflexivity.
Qed.

Lemma lex_string_raw (c : N) (t : jstr) :
  c <> DQ -> c <> BSL -> 32 <= c ->
  lex_string (c :: t) =
  match lex_string t with
  | Some (u, r) => Some (c :: u, r)
  | None => None
  end.
Proof.
  intros Hdq Hb Hc. cbn [lex_string].
  apply N.eqb_neq in Hdq, Hb. rewrite Hdq, Hb.
  replace (c <? 32) with false by (symmetry; apply N.ltb_ge; lia). reflexivity.
Qed.

(** The text of a code point that is not a surrogate reads back as it. *)
Lemma lex_string_quote_unit (c : N) (t : jstr) :
  lex_string (quote_unit c ++ t) =
  match lex_string t with
  | Some (u, r) => Some (c :: u, r)
  | None => None
  end.
Proof.
  destruct (N.ltb_spec c 32) as [Hlt|Hge].
  - assert (Hn : (N.to_nat c < 32)%nat) by lia.
    rewrite <- (N2Nat.id c). generalize (N.to_nat c) Hn. clear. intros n Hn.
    do 32 (destruct n as [|n]; [reflexivity|]). lia.
  - destruct (N.eqb_spec c DQ) as [->|Hdq]; [reflexivity|].
    destruct (N.eqb_spec c BSL) as [->|Hb]; [reflexivity|].
    assert (E8 : N.eqb c 8 = false) by (apply N.eqb_neq; lia).
    assert (E12 : N.eqb c 12 = false) by (apply N.eqb_neq; lia).
    assert (E10 : N.eqb c 10 = false) by (apply N.eqb_neq; lia).
    assert (E13 : N.eqb c 13 = false) by (apply N.eqb_neq; lia).
    assert (E9 : N.eqb c 9 = false) by (apply N.eqb_neq; lia).
    assert (Elt : (c <? 32) = false) by (apply N.ltb_ge; lia).
    unfold quote_unit.
    rewrite (proj2 (N.eqb_neq c DQ) Hdq), (proj2 (N.eqb_neq c BSL) Hb),
      E8, E12, E10, E13, E9, Elt.
    apply lex_string_raw; lia.
Qed.

(** [QuoteJSONString] read back by the string lexer. *)
Lemma lex_string_quote (s rest : jstr) :
  lex_string (quote_body s ++ DQ :: rest) = Some (s, rest).
Proof.
  remember (List.length s) as n eqn:Hn. revert s Hn.
  induction n as [n IH] using Wf_nat.lt_wf_ind. intros [|c r] Hn; [reflexivity|].
  simpl in Hn.
  cbn [quote_body].
  destruct (is_leading_surrogate c) eqn:Hl.
  - unfold is_leading_surrogate in Hl. apply andb_prop in Hl as [Hl1 Hl2].
    apply N.leb_le in Hl1, Hl2.
    destruct r as [|d r'].
    + rewrite lex_string_escape by lia. reflexivity.
    + destruct (is_trailing_surrogate d) eqn:Ht.
      * unfold is_trailing_surrogate in Ht. apply andb_prop in Ht as [Ht1 Ht2].
        apply N.leb_le in Ht1, Ht2. cbn [app].
        rewrite lex_string_raw by (unfold DQ, BSL; lia).
        rewrite lex_string_raw by (unfold DQ, BSL; lia).
        simpl in Hn. rewrite (IH (List.length r')) by (reflexivity || lia).
        reflexivity.
      * rewrite <- app_assoc, lex_string_escape by lia.
        rewrite (IH (List.length (d :: r'))) by (reflexivity || lia). reflexivity.
  - destruct (is_trailing_surrogate c) eqn:Ht.
    + unfold is_trailing_surrogate in Ht. apply andb_prop in Ht as [Ht1 Ht2].
      apply N.leb_le in Ht2.
      rewrite <- app_assoc, lex_string_escape by lia.
      rewrite (IH (List.length r)) by (reflexivity || lia). reflexivity.
    + rewrite <- app_assoc, lex_string_quote_unit.
      rewrite (IH (List.length r)) by (reflexivity || lia). reflexivity.
Qed.

Lemma plain_value_array (xs : list jvalue) :
  plain_value (JArray xs) = forallb plain_value xs.
Proof.
  induction xs as [|x xs IH]; [reflexivity|].
  simpl. simpl in IH. rewrite IH. reflexivity.
Qed.

Lemma plain_value_object (ps : list (jstr * jvalue)) :
  plain_value (JObject ps)
  = distinct_keys ps && forallb (fun p => plain_value (snd p)) ps.
Proof.
  unfold plain_value at 1. f_equal. fold plain_value.
  induction ps as [|[k x] ps IH]; [reflexivity|].
  simpl. rewrite IH. reflexivity.
Qed.

(** The text of one property: [quote(k) ": " value]. *)
Definition member_text (ind : jstr) (p : jstr * jvalue) : jstr :=
  quote (fst p) ++ js ": " ++ stringify_at ind (snd p).

Lemma stringify_array (ind : jstr) (x : jvalue) (xs : list jvalue) :
  stringify_at ind (JArray (x :: xs))
  = js "[" ++ [LF] ++ (ind ++ gap)
      ++ join ([44; LF] ++ (ind ++ gap)) (map (stringify_at (ind ++ gap)) (x :: xs))
      ++ [LF] ++ ind ++ js "]".
Proof. reflexivity. Qed.

Lemma stringify_object (ind : jstr) (p : jstr * jvalue) (ps : list (jstr * jvalue)) :
  stringify_at ind (JObject (p :: ps))
  = js "{" ++ [LF] ++ (ind ++ gap)
      ++ join ([44; LF] ++ (ind ++ gap)) (map (member_text (ind ++ gap)) (p :: ps))
      ++ [LF] ++ ind ++ js "}".
Proof.
  assert (Hm : forall l,
    (fix members (ps : list (jstr * jvalue)) : list jstr :=
       match ps with
       | [] => []
       | (k, x) :: rest => (quote k ++ js ": " ++ stringify_at (ind ++ gap) x) :: members rest
       end) l = map (member_text (ind ++ gap)) l).
  { induction l as [|[k x] l IH]; [reflexivity|]. cbn [map]. rewrite <- IH. reflexivity. }
  rewrite <- Hm. reflexivity.
Qed.

Lemma stringify_head (ind : jstr) (v : jvalue) :
  plain_value v = true ->
  exists c r, stringify_at ind v = c :: r
              /\ is_ws c = false /\ N.eqb c 93 = false /\ N.eqb c 125 = false.
Proof.
  intros Hp.
  destruct v as [| [|] | lx | s | [|x xs] | [|p ps]];
    try discriminate Hp; do 2 eexists; split; try reflexivity; auto.
Qed.

Lemma gap_ws (ind : jstr) : forallb is_ws ind = true -> forallb is_ws (ind ++ gap) = true.
Proof. intros H. rewrite forallb_app, H. reflexivity. Qed.

Lemma parse_elements_ws_app (f : nat) acc (w s : jstr) :
  forallb is_ws w = true -> parse_elements f acc (w ++ s) = parse_elements f acc s.
Proof.
  intros H. destruct f as [|f]; [reflexivity|].
  cbn [parse_elements]. rewrite (parse_value_ws_app _ _ _ H). reflexivity.
Qed.

Lemma parse_members_ws_app (f : nat) acc (w s : jstr) :
  forallb is_ws w = true -> parse_members f acc (w ++ s) = parse_members f acc s.
Proof.
  intros H. destruct f as [|f]; [reflexivity|].
  cbn [parse_members]. rewrite (skip_ws_app_ws _ _ H). reflexivity.
Qed.

Lemma parse_elements_unfold (f : nat) acc (s : jstr) :
  parse_elements (S f) acc s =
  match parse_value f s with
  | None => None
  | Some (v, r) =>
      match skip_ws r with
      | x :: r' =>
          if N.eqb x 44 then parse_elements f (acc ++ [v]) r'
          else if N.eqb x 93 then Some (JArray (acc ++ [v]), r')
          else None
      | [] => None
      end
  end.
Proof. reflexivity. Qed.

Lemma parse_value_bracket (f : nat) (r : jstr) :
  parse_value (S f) (91 :: r) =
  match expect 93 (skip_ws r) with
  | Some r' => Some (JArray [], r')
  | None => parse_elements f [] r
  end.
Proof. reflexivity. Qed.

Lemma parse_value_brace (f : nat) (r : jstr) :
  parse_value (S f) (123 :: r) =
  match expect 125 (skip_ws r) with
  | Some r' => Some (JObject [], r')
  | None => parse_members f [] r
  end.
Proof. reflexivity. Qed.

(** The serialization of a plain value, followed by anything, is read back
    by [parse_value] given more fuel than its length. *)
Definition reads_back (f : nat) : Prop :=
  forall v ind rest,
    plain_value v = true -> forallb is_ws ind = true ->
    (List.length (stringify_at ind v) < f)%nat ->
    parse_value f (stringify_at ind v ++ rest) = Some (v, rest).

(** The text of array elements after the first: [", " LF ind element]... *)
Definition elements_tail (ind : jstr) (xs : list jvalue) : jstr :=
  List.concat (map (fun y => ([44; LF] ++ ind) ++ y) (map (stringify_at ind) xs)).

Lemma elements_read_back (n : nat) (IH : forall m, (m < n)%nat -> reads_back m)
    (ind' ind rest : jstr) :
  forallb is_ws ind' = true -> forallb is_ws ind = true ->
  forall xs x acc g, (g <= n)%nat ->
  plain_value x = true -> forallb plain_value xs = true ->
  (S (List.length (stringify_at ind' x ++ elements_tail ind' xs)) < g)%nat ->
  parse_elements g acc
    ([LF] ++ ind' ++ (stringify_at ind' x ++ elements_tail ind' xs)
       ++ [LF] ++ ind ++ js "]" ++ rest)
  = Some (JArray (acc ++ x :: xs), rest).
Proof.
  intros Hind' Hind xs. induction xs as [|y xs IHxs]; intros x acc g Hg Hx Hxs Hlen;
    (destruct g as [|g]; [lia|]);
    rewrite length_app in Hlen;
    rewrite (parse_elements_ws_app _ _ [LF]) by reflexivity;
    rewrite (parse_elements_ws_app _ _ ind') by exact Hind';
    rewrite parse_elements_unfold, <- app_assoc;
    (rewrite (IH g) by (lia || assumption)).
  - change (elements_tail ind' []) with (@nil N). rewrite app_nil_l.
    rewrite (skip_ws_app_ws [LF]) by reflexivity.
    rewrite (skip_ws_app_ws ind) by exact Hind.
    reflexivity.
  - simpl in Hxs. apply andb_prop in Hxs as [Hy Hxs].
    change (elements_tail ind' (y :: xs))
      with ((([44; LF] ++ ind') ++ stringify_at ind' y) ++ elements_tail ind' xs) in Hlen |- *.
    rewrite !length_app in Hlen. simpl in Hlen.
    replace (((([44; LF] ++ ind') ++ stringify_at ind' y) ++ elements_tail ind' xs)
               ++ [LF] ++ ind ++ js "]" ++ rest)
      with (44 :: ([LF] ++ ind' ++ (stringify_at ind' y ++ elements_tail ind' xs)
                     ++ [LF] ++ ind ++ js "]" ++ rest))
      by (simpl; rewrite <- !app_assoc; reflexivity).
    rewrite (skip_ws_nonws 44) by reflexivity.
    change (N.eqb 44 44) with true. cbv iota.
    rewrite IHxs by (rewrite ?length_app; lia || assumption).
    rewrite <- app_assoc. reflexivity.
Qed.

(** The text of object members after the first. *)
Definition members_tail (ind : jstr) (ps : list (jstr * jvalue)) : jstr :=
  List.concat (map (fun y => ([44; LF] ++ ind) ++ y) (map (member_text ind) ps)).

Lemma member_text_app (ind k : jstr) (x : jvalue) (t u : jstr) :
  (member_text ind (k, x) ++ t) ++ u
  = DQ :: quote_body k ++ DQ :: 58 :: ([32] ++ stringify_at ind x ++ (t ++ u)).
Proof. unfold member_text, quote. simpl. rewrite <- !app_assoc. reflexivity. Qed.

Lemma member_text_length (ind k : jstr) (x : jvalue) :
  List.length (member_text ind (k, x))
  = (List.length (quote_body k) + 4 + List.length (stringify_at ind x))%nat.
Proof. unfold member_text, quote. simpl. rewrite !length_app. simpl. lia. Qed.

Lemma members_read_back (n : nat) (IH : forall m, (m < n)%nat -> reads_back m)
    (ind' ind rest : jstr) :
  forallb is_ws ind' = true -> forallb is_ws ind = true ->
  forall ps k x acc g, (g <= n)%nat ->
  plain_value x = true -> forallb (fun p => plain_value (snd p)) ps = true ->
  distinct_keys (acc ++ (k, x) :: ps) = true ->
  (S (List.length (member_text ind' (k, x) ++ members_tail ind' ps)) < g)%nat ->
  parse_members g acc
    ([LF] ++ ind' ++ (member_text ind' (k, x) ++ members_tail ind' ps)
       ++ [LF] ++ ind ++ js "}" ++ rest)
  = Some (JObject (acc ++ (k, x) :: ps), rest).
Proof.
  intros Hind' Hind ps.
  induction ps as [|[k' y] ps IHps]; intros k x acc g Hg Hx Hps Hd Hlen;
    (destruct g as [|g]; [lia|]);
    rewrite length_app in Hlen;
    rewrite (parse_members_ws_app _ _ [LF]) by reflexivity;
    rewrite (parse_members_ws_app _ _ ind') by exact Hind';
    destruct (distinct_keys_mid _ _ _ _ Hd) as [Hfresh Hd'];
    rewrite member_text_app;
    rewrite parse_members_dq, lex_string_quote;
    rewrite (skip_ws_nonws 58), expect_same by reflexivity;
    rewrite (parse_value_ws_app _ [32]) by reflexivity;
    rewrite member_text_length in Hlen;
    (rewrite (IH g) by (lia || assumption));
    rewrite (obj_set_fresh _ _ _ Hfresh).
  - change (members_tail ind' []) with (@nil N). rewrite app_nil_l.
    rewrite (skip_ws_app_ws [LF]) by reflexivity.
    rewrite (skip_ws_app_ws ind) by exact Hind.
    reflexivity.
  - simpl in Hps. apply andb_prop in Hps as [Hy Hps].
    change (members_tail ind' ((k', y) :: ps))
      with ((([44; LF] ++ ind') ++ member_text ind' (k', y)) ++ members_tail ind' ps).
    change (members_tail ind' ((k', y) :: ps))
      with ((([44; LF] ++ ind') ++ member_text ind' (k', y)) ++ members_tail ind' ps)
      in Hlen.
    rewrite !length_app, member_text_length in Hlen. simpl in Hlen.
    replace (((([44; LF] ++ ind') ++ member_text ind' (k', y)) ++ members_tail ind' ps)
               ++ [LF] ++ ind ++ js "}" ++ rest)
      with (44 :: ([LF] ++ ind' ++ (member_text ind' (k', y) ++ members_tail ind' ps)
                     ++ [LF] ++ ind ++ js "}" ++ rest))
      by (rewrite <- !app_assoc; reflexivity).
    rewrite (skip_ws_nonws 44) by reflexivity.
    change (N.eqb 44 44) with true. cbv iota.
    rewrite IHps
      by first [lia | assumption | (rewrite length_app, member_text_length; lia)].

    rewrite <- app_assoc. reflexivity.
Qed.

Lemma stringify_reads_back (f : nat) : reads_back f.
Proof.
  induction f as [f IH] using Wf_nat.lt_wf_ind.
  intros v ind rest Hp Hind Hlen.
  destruct f as [|f]; [lia|].
  assert (Hind' : forallb is_ws (ind ++ gap) = true) by (apply gap_ws; exact Hind).
  destruct v as [| [|] | lx | s | [|x xs] | [|[k x] ps]];
    try discriminate Hp; try reflexivity.
  - unfold stringify_at, quote.
    replace (([DQ] ++ quote_body s ++ [DQ]) ++ rest) with (DQ :: quote_body s ++ DQ :: rest)
      by (simpl; rewrite <- app_assoc; reflexivity).
    rewrite parse_value_dq, lex_string_quote. reflexivity.
  - rewrite plain_value_array in Hp. simpl in Hp. apply andb_prop in Hp as [Hx Hxs].
    rewrite stringify_array in Hlen |- *. cbn [map] in Hlen |- *.
    rewrite join_cons in Hlen |- *.
    change (List.concat (map (fun y => ([44; LF] ++ ind ++ gap) ++ y)
                           (map (stringify_at (ind ++ gap)) xs)))
      with (elements_tail (ind ++ gap) xs) in Hlen |- *.
    rewrite !length_app in Hlen. simpl in Hlen.
    replace ((js "[" ++ [LF] ++ (ind ++ gap)
                ++ (stringify_at (ind ++ gap) x ++ elements_tail (ind ++ gap) xs)
                ++ [LF] ++ ind ++ js "]") ++ rest)
      with (91 :: ([LF] ++ (ind ++ gap)
                ++ (stringify_at (ind ++ gap) x ++ elements_tail (ind ++ gap) xs)
                ++ [LF] ++ ind ++ js "]" ++ rest))
      by (rewrite <- !app_assoc; reflexivity).
    rewrite parse_value_bracket.
    assert (Hexp : expect 93 (skip_ws ([LF] ++ (ind ++ gap)
                     ++ (stringify_at (ind ++ gap) x ++ elements_tail (ind ++ gap) xs)
                     ++ [LF] ++ ind ++ js "]" ++ rest)) = None).
    { rewrite (skip_ws_app_ws [LF]), (skip_ws_app_ws (ind ++ gap)) by assumption || reflexivity.
      destruct (stringify_head (ind ++ gap) x Hx) as (c & r & HX & Hws & H93 & _).
      rewrite HX. simpl app. rewrite (skip_ws_nonws c) by exact Hws.
      simpl. rewrite H93. reflexivity. }
    rewrite Hexp.
    rewrite (elements_read_back (S f) IH (ind ++ gap) ind rest Hind' Hind xs x [] f)
      by first [lia | assumption | (rewrite length_app; lia)].
    reflexivity.
  - rewrite plain_value_object in Hp. apply andb_prop in Hp as [Hd Hps].
    simpl in Hps. apply andb_prop in Hps as [Hx Hps].
    rewrite stringify_object in Hlen |- *. cbn [map] in Hlen |- *.
    rewrite join_cons in Hlen |- *.
    change (List.concat (map (fun y => ([44; LF] ++ ind ++ gap) ++ y)
                           (map (member_text (ind ++ gap)) ps)))
      with (members_tail (ind ++ gap) ps) in Hlen |- *.
    rewrite !length_app in Hlen.
    replace ((js "{" ++ [LF] ++ (ind ++ gap)
                ++ (member_text (ind ++ gap) (k, x) ++ members_tail (ind ++ gap) ps)
                ++ [LF] ++ ind ++ js "}") ++ rest)
      with (123 :: ([LF] ++ (ind ++ gap)
                ++ (member_text (ind ++ gap) (k, x) ++ members_tail (ind ++ gap) ps)
                ++ [LF] ++ ind ++ js "}" ++ rest))
      by (rewrite <- !app_assoc; reflexivity).
    rewrite parse_value_brace.
    assert (Hexp : expect 125 (skip_ws ([LF] ++ (ind ++ gap)
                     ++ (member_text (ind ++ gap) (k, x) ++ members_tail (ind ++ gap) ps)
                     ++ [LF] ++ ind ++ js "}" ++ rest)) = None).
    { rewrite (skip_ws_app_ws [LF]), (skip_ws_app_ws (ind ++ gap)) by assumption || reflexivity.
      rewrite member_text_app. reflexivity. }
    rewrite Hexp.
    change (List.length (js "{")) with 1%nat in Hlen.
    change (List.length (js "}")) with 1%nat in Hlen.
    rewrite (members_read_back (S f) IH (ind ++ gap) ind rest Hind' Hind ps k x [] f)
      by first [lia | assumption | exact Hd | (rewrite length_app; lia)].
    reflexivity.
Qed.

Lemma stringify_read_back_top (v : jvalue) :
  plain_value v = true -> json_parse (stringify v) = Some v.
Proof.
  intros Hp. unfold json_parse, stringify.
  pose proof (stringify_reads_back (S (List.length (stringify_at [] v))) v [] []
                Hp eq_refl ltac:(lia)) as H.
  rewrite app_nil_r in H. rewrite H. reflexivity.
Qed.

(** JSON.parse reads back what JSON.stringify(v, null, 2) writes, for every
    value without numbers and with distinct keys in each object. *)
Theorem json_parse_stringify (v : jvalue) :
  plain_value v = true -> json_parse (stringify v) = Some v.
Proof. exact (stringify_read_back_top v). Qed.

Lemma json_parse_stringify_witness :
  plain_value schema = true /\ json_parse (stringify schema) = Some schema.
Proof. split; [reflexivity | apply json_parse_stringify; reflexivity]. Defined.

(** The system message built by constructMessages embeds the schema as a
    JSON text between the fixed instructions, and that text parses back to
    the schema, for any city. *)
Theorem constructMessages_schema_round_trip (city : jstr) (s : jvalue) :
  plain_value s = true ->
  exists t, constructMessages city s
            = [ {| role := js "system";
                   content := system_prompt_head ++ t ++ system_prompt_tail |};
                {| role := js "user"; content := city |} ]
            /\ json_parse t = Some s
            /\ safeJsonParse t = Ok s.
Proof.
  intros Hp. exists (stringify s).
  unfold safeJsonParse. rewrite (stringify_read_back_top s Hp). auto.
Qed.

Lemma constructMessages_schema_round_trip_witness :
  plain_value schema = true /\
  exists t, constructMessages (js "London") schema
            = [ {| role := js "system";
                   content := system_prompt_head ++ t ++ system_prompt_tail |};
                {| role := js "user"; content := js "London" |} ]
            /\ json_parse t = Some schema
            /\ safeJsonParse t = Ok schema.
Proof.
  split; [reflexivity|].
  apply constructMessages_schema_round_trip; reflexivity.
Defined.
